(** * The URL poller of gotour/idiomaticgo/share_memory_by_communicating.go

    A shallow embedding of the polling pipeline: the [Resource] and [State]
    records, [Resource.Poll], [Resource.Sleep], the [StateMonitor] loop with
    [logState], the [Poller] loop and the goroutines started by
    [ShareMemory].

    Conventions of the embedding:
    - Go's [int] (on the 64-bit targets) and [time.Duration] (an [int64]
      count of nanoseconds) are integers of [Z] kept in the signed 64-bit
      range; [+], [*] and [++] wrap around, as the Go specification says
      for signed overflow.
    - [http.Head] is the outside world: its result is an argument of [Poll].
    - the standard logger is the list of the messages handed to it, one
      element per call of [log.Println] or [log.Printf]. What the logger
      adds when it writes a message (the date and time in front, the final
      newline) is not part of the element, and a message is not split where
      it holds a newline.
    - a [range] over a Go map visits the entries in an order chosen by the
      runtime: the order is an argument of [logState], constrained to be a
      permutation of the entries.
    - an unbuffered channel is a rendezvous: a send and the matching receive
      are one joint step of the sender and the receiver. *)

From Stdlib Require Import ZArith Lia.
From stdpp Require Import base strings list gmap fin_maps.

Local Open Scope Z_scope.

(** ** Signed 64-bit arithmetic *)

Module Int64.

Definition min_int : Z := - 2 ^ 63.
Definition max_int : Z := 2 ^ 63 - 1.
Definition modulus : Z := 2 ^ 64.

Definition in_range (z : Z) : Prop := min_int <= z <= max_int.

(** The representative of [z] modulo [2^64] in the signed range. *)
Definition wrap (z : Z) : Z := (z - min_int) mod modulus + min_int.

Definition add (x y : Z) : Z := wrap (x + y).
Definition mul (x y : Z) : Z := wrap (x * y).

End Int64.

(** ** Constants *)

(** [time.Second], in nanoseconds. *)
Definition Second : Z := 1000000000.

Definition numPollers : nat := 2.
Definition pollInterval : Z := 60 * Second.
Definition statusInterval : Z := 10 * Second.
Definition errTimeout : Z := 10 * Second.

Definition urls : list string :=
  [ "http://www.google.com/"; "http://golang.org/"; "http://blog.golang.org/" ]%string.

(** ** State and Resource *)

(** [State]: the last-known state of a URL (fields [url] and [status]). *)
Record State : Type := mkState { s_url : string; s_status : string }.

(** [Resource]: a URL to be polled and the number of errors since the last
    successful poll. *)
Record Resource : Type := mkResource { url : string; errCount : Z }.

(** [&Resource{url: url}]: the counter takes the zero value. *)
Definition newResource (u : string) : Resource :=
  {| url := u; errCount := 0 |}.

(** The invariant of the representation: the counter is a Go [int]. *)
Definition wf_Resource (r : Resource) : Prop := Int64.in_range (errCount r).

(** ** http.Head *)

Record Response : Type := mkResponse { Status : string }.
Record error : Type := mkError { Error : string }.

(** What [http.Head] returns: [(resp, nil)] or [(nil, err)]. *)
Inductive HeadResult : Type :=
| HeadOk (resp : Response)
| HeadErr (err : error).

(** [log.Println a b c]: the operands separated by single spaces. *)
Definition Println3 (a b c : string) : string :=
  a +:+ " " +:+ b +:+ " " +:+ c.

(** ** Resource.Poll *)

(** What a call of [Poll] leaves behind: the resource after the call, the
    string returned and the messages handed to the logger. *)
Record Polled : Type :=
  mkPolled { after : Resource; returned : string; logged : list string }.

Definition Poll (r : Resource) (head : HeadResult) : Polled :=
  match head with
  | HeadErr err =>
      {| after := {| url := url r; errCount := Int64.add (errCount r) 1 |};
         returned := Error err;
         logged := [Println3 "Error" (url r) (Error err)] |}
  | HeadOk resp =>
      {| after := {| url := url r; errCount := 0 |};
         returned := Status resp;
         logged := [] |}
  end.

(** ** Resource.Sleep *)

(** [time.Duration(n)] for an [int] n. *)
Definition Duration (n : Z) : Z := Int64.wrap n.

(** The argument of [time.Sleep] in [Sleep]. *)
Definition Sleep_delay (r : Resource) : Z :=
  Int64.add pollInterval (Int64.mul errTimeout (Duration (errCount r))).

(** [Sleep]: the pause asked for, then the resource sent on [done]. *)
Definition Sleep (r : Resource) : Z * Resource := (Sleep_delay r, r).

(** ** StateMonitor and logState *)

(** [log.Printf(" %s %s", k, v)]. *)
Definition Printf_entry (k v : string) : string :=
  " " +:+ k +:+ " " +:+ v.

(** [visit] lists the entries of the map [s] in the order in which the
    [range] of [logState] visits them. *)
Definition range_order (s : gmap string string)
    (visit : list (string * string)) : Prop :=
  visit ≡ₚ map_to_list s.

(** [logState], given the entries in visiting order: the messages logged,
    one per call of the logger. *)
Definition logState (visit : list (string * string)) : list string :=
  "Current state:"%string :: map (fun kv => Printf_entry kv.1 kv.2) visit.

(** The two communications of the [select] in the monitor's loop. *)
Inductive Select : Type :=
| Tick                      (* <-ticker.C *)
| Update (s : State).       (* s := <-updates *)

(** One iteration of the loop of [StateMonitor]: from the map [urlStatus]
    and the communication chosen, the map afterwards and the messages
    logged during the iteration. *)
Inductive StateMonitor_step (urlStatus : gmap string string) :
    Select -> gmap string string -> list string -> Prop :=
| StateMonitor_tick visit :
    range_order urlStatus visit ->
    StateMonitor_step urlStatus Tick urlStatus (logState visit)
| StateMonitor_update s :
    StateMonitor_step urlStatus (Update s)
      (<[s_url s := s_status s]> urlStatus) [].

(** Several iterations in a row. *)
Inductive StateMonitor_run (urlStatus : gmap string string) :
    list Select -> gmap string string -> list string -> Prop :=
| StateMonitor_run_nil : StateMonitor_run urlStatus [] urlStatus []
| StateMonitor_run_cons c cs mid final out1 out2 :
    StateMonitor_step urlStatus c mid out1 ->
    StateMonitor_run mid cs final out2 ->
    StateMonitor_run urlStatus (c :: cs) final (out1 ++ out2).

(** The map of a new monitor: [make(map[string]string)]. *)
Definition newStatus : gmap string string := ∅.

(** The effect of a sequence of updates on the map, as a function. *)
Definition apply_updates (urlStatus : gmap string string) (evs : list State) :
    gmap string string :=
  foldl (fun m s => <[s_url s := s_status s]> m) urlStatus evs.

(** The events of [evs] for the endpoint [u], in their order. *)
Definition events_of (u : string) (evs : list State) : list State :=
  filter (fun s => s_url s = u) evs.

(** ** Poller *)

(** The sends of a Poller. *)
Inductive Sent : Type :=
| ToStatus (s : State)      (* status <- State{r.url, s} *)
| ToOut (r : Resource).     (* out <- r *)

(** The body of the loop for a received resource, given what [http.Head]
    answers during the call of [Poll]. *)
Definition Poller_body (r : Resource) (head : HeadResult) : list Sent :=
  let p := Poll r head in
  [ ToStatus {| s_url := url (after p); s_status := returned p |};
    ToOut (after p) ].

(** [Poller] on the resources that arrive on [in], in order, each with the
    answer of its probe: the sends performed, in order. *)
Fixpoint Poller (received : list (Resource * HeadResult)) : list Sent :=
  match received with
  | [] => []
  | (r, head) :: rest => Poller_body r head ++ Poller rest
  end.

Definition status_sends (t : list Sent) : list State :=
  omap (fun e => match e with ToStatus s => Some s | ToOut _ => None end) t.

Definition out_sends (t : list Sent) : list Resource :=
  omap (fun e => match e with ToOut r => Some r | ToStatus _ => None end) t.

(** The resource after a sequence of polls with the given answers. *)
Definition poll_all (r : Resource) (heads : list HeadResult) : Resource :=
  foldl (fun r head => after (Poll r head)) r heads.

(** ** ShareMemory: the goroutines and their rendezvous *)

(** Where a Poller goroutine stands in its loop. *)
Inductive PollerAt : Type :=
| AtReceive                               (* for r := range in *)
| AtPoll (r : Resource)                   (* s := r.Poll() *)
| AtStatus (r : Resource) (s : string)    (* status <- State{r.url, s} *)
| AtOut (r : Resource).                   (* out <- r *)

(** The resource a Poller holds, if any. *)
Definition held (p : PollerAt) : list Resource :=
  match p with
  | AtReceive => []
  | AtPoll r | AtOut r => [r]
  | AtStatus r _ => [r]
  end.

Record System : Type := mkSystem {
  pollers : list PollerAt;        (* the Poller goroutines *)
  seed : list string;             (* URLs the seeding goroutine has yet to send *)
  received : option Resource;     (* main loop: between the receive from
                                     complete and [go r.Sleep(pending)] *)
  sleepers : list Resource;       (* goroutines inside r.Sleep(pending) *)
  urlStatus : gmap string string; (* the map owned by the monitor *)
  stdlog : list string            (* the messages logged so far *)
}.

(** The state once [ShareMemory] has launched every goroutine. *)
Definition ShareMemory : System :=
  {| pollers := replicate numPollers AtReceive;
     seed := urls;
     received := None;
     sleepers := [];
     urlStatus := newStatus;
     stdlog := [] |}.

(** The steps of the program. A send on an unbuffered channel and its receive
    are one step. The pause of [Sleep] is not timed: a sleeper may send at
    any later step. *)
Inductive step : System -> System -> Prop :=
| step_seed sys i u rest :
    (* pending <- &Resource{url: url}, received by Poller i *)
    seed sys = u :: rest ->
    pollers sys !! i = Some AtReceive ->
    step sys
      {| pollers := <[i := AtPoll (newResource u)]> (pollers sys);
         seed := rest; received := received sys; sleepers := sleepers sys;
         urlStatus := urlStatus sys; stdlog := stdlog sys |}
| step_resubmit sys i r before behind :
    (* done <- r at the end of r.Sleep(pending), received by Poller i *)
    sleepers sys = before ++ r :: behind ->
    pollers sys !! i = Some AtReceive ->
    step sys
      {| pollers := <[i := AtPoll r]> (pollers sys);
         seed := seed sys; received := received sys;
         sleepers := before ++ behind;
         urlStatus := urlStatus sys; stdlog := stdlog sys |}
| step_poll sys i r head :
    (* s := r.Poll() in Poller i *)
    pollers sys !! i = Some (AtPoll r) ->
    step sys
      {| pollers :=
           <[i := AtStatus (after (Poll r head)) (returned (Poll r head))]>
             (pollers sys);
         seed := seed sys; received := received sys; sleepers := sleepers sys;
         urlStatus := urlStatus sys;
         stdlog := stdlog sys ++ logged (Poll r head) |}
| step_status sys i r s table out :
    (* status <- State{r.url, s}, received by the monitor *)
    pollers sys !! i = Some (AtStatus r s) ->
    StateMonitor_step (urlStatus sys)
      (Update {| s_url := url r; s_status := s |}) table out ->
    step sys
      {| pollers := <[i := AtOut r]> (pollers sys);
         seed := seed sys; received := received sys; sleepers := sleepers sys;
         urlStatus := table; stdlog := stdlog sys ++ out |}
| step_complete sys i r :
    (* out <- r, received by the main loop *)
    pollers sys !! i = Some (AtOut r) ->
    received sys = None ->
    step sys
      {| pollers := <[i := AtReceive]> (pollers sys);
         seed := seed sys; received := Some r; sleepers := sleepers sys;
         urlStatus := urlStatus sys; stdlog := stdlog sys |}
| step_go sys r :
    (* go r.Sleep(pending) *)
    received sys = Some r ->
    step sys
      {| pollers := pollers sys;
         seed := seed sys; received := None; sleepers := r :: sleepers sys;
         urlStatus := urlStatus sys; stdlog := stdlog sys |}
| step_ticker sys table out :
    (* <-ticker.C in the monitor *)
    StateMonitor_step (urlStatus sys) Tick table out ->
    step sys
      {| pollers := pollers sys;
         seed := seed sys; received := received sys; sleepers := sleepers sys;
         urlStatus := table; stdlog := stdlog sys ++ out |}.

(** The states of the executions of [ShareMemory]. *)
Inductive reachable : System -> Prop :=
| reachable_start : reachable ShareMemory
| reachable_step sys sys' : reachable sys -> step sys sys' -> reachable sys'.

(** The resources in flight: those held by a Poller. *)
Definition in_flight (sys : System) : list Resource :=
  concat (held <$> pollers sys).

(** Every resource of the system, wherever it is. *)
Definition all_resources (sys : System) : list Resource :=
  (newResource <$> seed sys) ++ in_flight sys
    ++ option_list (received sys) ++ sleepers sys.

(** The largest counter for which the delay of [Sleep] does not overflow. *)
Definition last_exact_errCount : Z := (Int64.max_int - pollInterval) / errTimeout.

(** Two states of an execution: the first URL handed to Poller 0, then the
    second URL handed to Poller 1. *)
Definition first_polling : System :=
  {| pollers := [AtPoll (newResource "http://www.google.com/"); AtReceive];
     seed := ["http://golang.org/"; "http://blog.golang.org/"]%string;
     received := None; sleepers := [];
     urlStatus := newStatus; stdlog := [] |}.

Definition both_polling : System :=
  {| pollers := [AtPoll (newResource "http://www.google.com/");
                 AtPoll (newResource "http://golang.org/")];
     seed := ["http://blog.golang.org/"%string];
     received := None; sleepers := [];
     urlStatus := newStatus; stdlog := [] |}.

(** The URLs of the resources of the system, one per resource. *)
Definition urls_of (sys : System) : list string := url <$> all_resources sys.

(** A map with two entries. *)
Definition two_up : gmap string string :=
  <["http://golang.org/" := "200 OK"]>
    {[ "http://blog.golang.org/" := "200 OK" ]}%string.

(** Whether the probe failed. *)
Definition failed (head : HeadResult) : bool :=
  match head with
  | HeadErr _ => true
  | HeadOk _ => false
  end.

(** The States received in a sequence of communications of the monitor. *)
Definition updates_in (cs : list Select) : list State :=
  omap (fun c => match c with Update s => Some s | Tick => None end) cs.

(** Whether a Poller stands at its receive. *)
Definition idle (p : PollerAt) : bool :=
  match p with
  | AtReceive => true
  | _ => false
  end.

(** Two further states: Poller 0 has polled its URL with success, then has
    reported to the monitor. *)
Definition first_polled : System :=
  {| pollers := [AtStatus (newResource "http://www.google.com/") "200 OK";
                 AtPoll (newResource "http://golang.org/")];
     seed := ["http://blog.golang.org/"%string];
     received := None; sleepers := [];
     urlStatus := newStatus; stdlog := [] |}.

Definition first_reported : System :=
  {| pollers := [AtOut (newResource "http://www.google.com/");
                 AtPoll (newResource "http://golang.org/")];
     seed := ["http://blog.golang.org/"%string];
     received := None; sleepers := [];
     urlStatus := <["http://www.google.com/" := "200 OK"]> newStatus;
     stdlog := [] |}%string.

(** Three states of another execution: Poller 0 alone has polled its URL
    with success, has reported, and has handed the resource back to the
    main loop. *)
Definition solo_polled : System :=
  {| pollers := [AtStatus (newResource "http://www.google.com/") "200 OK";
                 AtReceive];
     seed := ["http://golang.org/"; "http://blog.golang.org/"]%string;
     received := None; sleepers := [];
     urlStatus := newStatus; stdlog := [] |}.

Definition solo_reported : System :=
  {| pollers := [AtOut (newResource "http://www.google.com/"); AtReceive];
     seed := ["http://golang.org/"; "http://blog.golang.org/"]%string;
     received := None; sleepers := [];
     urlStatus := <["http://www.google.com/" := "200 OK"]> newStatus;
     stdlog := [] |}%string.

Definition first_handed_back : System :=
  {| pollers := [AtReceive; AtReceive];
     seed := ["http://golang.org/"; "http://blog.golang.org/"]%string;
     received := Some (newResource "http://www.google.com/");
     sleepers := [];
     urlStatus := <["http://www.google.com/" := "200 OK"]> newStatus;
     stdlog := [] |}%string.

(** The map of the monitor as it stands at each tick of a sequence of
    communications served from the map [m], in the order of the ticks. *)
Fixpoint tables_at_ticks (m : gmap string string) (cs : list Select) :
    list (gmap string string) :=
  match cs with
  | [] => []
  | Tick :: rest => m :: tables_at_ticks m rest
  | Update s :: rest => tables_at_ticks (<[s_url s := s_status s]> m) rest
  end.

(** * Properties *)

(** ** Facts on the 64-bit arithmetic *)

Module Int64Facts.
Import Int64.

Lemma wrap_range z : in_range (wrap z).
Proof.
  unfold in_range, wrap.
  assert (0 <= (z - min_int) mod modulus < modulus)
    by (apply Z.mod_pos_bound; reflexivity).
  unfold min_int, max_int, modulus in *. lia.
Qed.

Lemma wrap_small z : in_range z -> wrap z = z.
Proof.
  unfold in_range, wrap; intros Hz.
  rewrite Z.mod_small; [lia|].
  unfold min_int, max_int, modulus in *. lia.
Qed.

Lemma wrap_congr z : exists q, wrap z = z - q * modulus.
Proof.
  exists ((z - min_int) / modulus). unfold wrap.
  rewrite Z.mod_eq by (unfold modulus; lia). lia.
Qed.

Lemma wrap_overflow z : ~ in_range z -> wrap z <> z.
Proof. intros Hz Heq. apply Hz. rewrite <- Heq. apply wrap_range. Qed.

(** Wrapping an intermediate result does not change the wrapped sum. *)
Lemma wrap_add_l x y : wrap (wrap x + y) = wrap (x + y).
Proof.
  destruct (wrap_congr x) as [q ->]. unfold wrap.
  replace (x - q * modulus + y - min_int)
    with (x + y - min_int + (- q) * modulus) by lia.
  now rewrite Z.mod_add by (unfold modulus; lia).
Qed.

Lemma wrap_add_r x y : wrap (x + wrap y) = wrap (x + y).
Proof. rewrite (Z.add_comm x), wrap_add_l. f_equal; lia. Qed.

Lemma wrap_mul_r x y : wrap (x * wrap y) = wrap (x * y).
Proof.
  destruct (wrap_congr y) as [q ->]. unfold wrap.
  replace (x * (y - q * modulus) - min_int)
    with (x * y - min_int + (- (x * q)) * modulus) by lia.
  now rewrite Z.mod_add by (unfold modulus; lia).
Qed.

(** The successor in 64 bits: exact below [max_int], [min_int] at it. *)
Lemma add_1 z :
  in_range z ->
  add z 1 = if decide (z = max_int) then min_int else z + 1.
Proof.
  intros Hz. unfold add. case_decide as Hmax.
  - subst z. reflexivity.
  - apply wrap_small. unfold in_range in *. lia.
Qed.

End Int64Facts.

(** ** The delay of Sleep *)

Example last_exact_errCount_value : last_exact_errCount = 922337197.
Proof. reflexivity. Qed.

(** The delay is the exact linear expression reduced to 64 bits. *)
Lemma Sleep_delay_wrap r :
  Sleep_delay r = Int64.wrap (pollInterval + errTimeout * errCount r).
Proof.
  unfold Sleep_delay, Duration, Int64.add, Int64.mul.
  now rewrite Int64Facts.wrap_mul_r, Int64Facts.wrap_add_r.
Qed.

Lemma Sleep_delay_exact r :
  Int64.in_range (pollInterval + errTimeout * errCount r) ->
  Sleep_delay r = pollInterval + errTimeout * errCount r.
Proof. intros H. rewrite Sleep_delay_wrap. now apply Int64Facts.wrap_small. Qed.

Lemma Sleep_delay_inexact r :
  ~ Int64.in_range (pollInterval + errTimeout * errCount r) ->
  Sleep_delay r <> pollInterval + errTimeout * errCount r.
Proof. intros H. rewrite Sleep_delay_wrap. now apply Int64Facts.wrap_overflow. Qed.

(** C2, as amended: for a Resource whose counter is k with
    0 <= k <= 922337197, the delay of [Sleep] is
    pollInterval + errTimeout * k; after a successful probe the delay is
    pollInterval exactly. *)
Theorem Sleep_delay_linear (r : Resource) (k : Z) :
  errCount r = k ->
  0 <= k <= last_exact_errCount ->
  Sleep_delay r = pollInterval + errTimeout * k
  /\ (forall resp, Sleep_delay (after (Poll r (HeadOk resp))) = pollInterval).
Proof.
  intros Hk Hrange. split.
  - subst k. apply Sleep_delay_exact.
    rewrite last_exact_errCount_value in Hrange.
    unfold Int64.in_range, Int64.min_int, Int64.max_int,
      pollInterval, errTimeout, Second.
    lia.
  - intros resp. reflexivity.
Qed.

Lemma Sleep_delay_linear_witness :
  Sleep_delay {| url := "http://golang.org/"; errCount := 2 |}
    = pollInterval + errTimeout * 2
  /\ (forall resp,
        Sleep_delay
          (after (Poll {| url := "http://golang.org/"; errCount := 2 |}
                    (HeadOk resp))) = pollInterval).
Proof.
  apply (Sleep_delay_linear {| url := "http://golang.org/"; errCount := 2 |} 2).
  - reflexivity.
  - rewrite last_exact_errCount_value. lia.
Defined.

(** C2 as stated fails: with the counter at 922337198 the delay computed is
    not pollInterval + errTimeout * 922337198 but that number less 2^64. *)
Lemma Sleep_delay_linear_fails :
  let r := {| url := "http://golang.org/"; errCount := 922337198 |} in
  0 <= errCount r
  /\ Sleep_delay r = -9223372033709551616
  /\ Sleep_delay r <> pollInterval + errTimeout * errCount r.
Proof. cbv zeta. split; [|split]; [simpl; lia|reflexivity|discriminate]. Qed.

(** C10: the delay is computed in signed 64-bit arithmetic. It always lies
    in the 64-bit range and is congruent to the exact expression modulo
    2^64; whenever errTimeout * errCount exceeds 2^63 - 1 the product and
    the delay differ from their exact values; some non-negative counter
    has a negative delay, and the delay is not monotone in the counter. *)
Theorem Sleep_delay_fixed_width :
  (forall r,
      Int64.in_range (Sleep_delay r)
      /\ exists q,
           Sleep_delay r = pollInterval + errTimeout * errCount r - q * 2 ^ 64)
  /\ (forall r,
        wf_Resource r ->
        Int64.max_int < errTimeout * errCount r ->
        Int64.mul errTimeout (Duration (errCount r)) <> errTimeout * errCount r
        /\ Sleep_delay r <> pollInterval + errTimeout * errCount r)
  /\ (exists r, wf_Resource r /\ 0 <= errCount r /\ Sleep_delay r < 0)
  /\ (exists r1 r2,
        wf_Resource r1 /\ wf_Resource r2
        /\ 0 <= errCount r1 <= errCount r2
        /\ Sleep_delay r2 < Sleep_delay r1).
Proof.
  repeat split.
  - rewrite Sleep_delay_wrap. apply Int64Facts.wrap_range.
  - rewrite Sleep_delay_wrap. apply Int64Facts.wrap_range.
  - rewrite Sleep_delay_wrap. apply Int64Facts.wrap_congr.
  - unfold Int64.mul, Duration. rewrite Int64Facts.wrap_mul_r.
    apply Int64Facts.wrap_overflow. unfold Int64.in_range. lia.
  - apply Sleep_delay_inexact. unfold Int64.in_range, pollInterval, Second.
    lia.
  - exists {| url := "http://golang.org/"; errCount := 922337198 |}.
    unfold wf_Resource, Int64.in_range. simpl.
    repeat split; try (vm_compute; congruence).
  - exists {| url := "http://golang.org/"; errCount := 922337197 |},
           {| url := "http://golang.org/"; errCount := 922337198 |}.
    unfold wf_Resource, Int64.in_range. simpl.
    repeat split; try (vm_compute; congruence).
Qed.

(** ** Poll and the counter *)

Lemma Poll_url r head : url (after (Poll r head)) = url r.
Proof. now destruct head. Qed.

Lemma Poll_wf r head : wf_Resource r -> wf_Resource (after (Poll r head)).
Proof.
  intros _. destruct head; unfold wf_Resource; simpl.
  - unfold Int64.in_range, Int64.min_int, Int64.max_int. lia.
  - apply Int64Facts.wrap_range.
Qed.

(** C1, as amended: a call of [Poll] has one of two outcomes. If the probe
    succeeds the counter becomes 0 and the string returned is the status of
    the response. If it fails the string returned is the description of the
    error and the counter goes up by exactly 1 when it is below 2^63 - 1;
    at 2^63 - 1 it wraps to -2^63. *)
Theorem Poll_outcomes (r : Resource) (head : HeadResult) :
  wf_Resource r ->
  match head with
  | HeadOk resp =>
      errCount (after (Poll r head)) = 0
      /\ returned (Poll r head) = Status resp
  | HeadErr err =>
      errCount (after (Poll r head))
        = (if decide (errCount r = Int64.max_int)
           then Int64.min_int else errCount r + 1)
      /\ returned (Poll r head) = Error err
  end.
Proof.
  intros Hwf. destruct head as [resp|err]; simpl.
  - split; reflexivity.
  - split; [|reflexivity]. now apply Int64Facts.add_1.
Qed.

Lemma Poll_outcomes_witness :
  errCount
    (after (Poll {| url := "http://golang.org/"; errCount := 3 |}
              (HeadErr {| Error := "i/o timeout" |}))) = 4
  /\ returned (Poll {| url := "http://golang.org/"; errCount := 3 |}
                 (HeadErr {| Error := "i/o timeout" |})) = "i/o timeout"%string.
Proof.
  apply (Poll_outcomes {| url := "http://golang.org/"; errCount := 3 |}
           (HeadErr {| Error := "i/o timeout" |})).
  unfold wf_Resource, Int64.in_range. simpl. vm_compute.
  split; discriminate.
Defined.

(** C1 as stated fails: a failed probe of a Resource whose counter is
    2^63 - 1 leaves the counter at -2^63, not at one more. *)
Lemma Poll_increment_fails :
  let r := {| url := "http://golang.org/"; errCount := 9223372036854775807 |} in
  let p := Poll r (HeadErr {| Error := "i/o timeout" |}) in
  wf_Resource r
  /\ errCount (after p) = -9223372036854775808
  /\ errCount (after p) <> errCount r + 1.
Proof.
  cbv zeta. split; [|split].
  - unfold wf_Resource, Int64.in_range. simpl. vm_compute. split; discriminate.
  - reflexivity.
  - discriminate.
Qed.

(** ** The counter over the lifetime of a Resource *)

Lemma poll_all_cons r head heads :
  poll_all r (head :: heads) = poll_all (after (Poll r head)) heads.
Proof. reflexivity. Qed.

Lemma poll_all_app r heads1 heads2 :
  poll_all r (heads1 ++ heads2) = poll_all (poll_all r heads1) heads2.
Proof. apply foldl_app. Qed.

(** n failed probes in a row add n to the counter, modulo 2^64. *)
Lemma poll_all_failures err (n : nat) : forall r,
  wf_Resource r ->
  errCount (poll_all r (replicate n (HeadErr err)))
    = Int64.wrap (errCount r + Z.of_nat n).
Proof.
  induction n as [|n IH]; intros r Hwf.
  - cbn [replicate poll_all foldl]. rewrite Z.add_0_r.
    symmetry. now apply Int64Facts.wrap_small.
  - cbn [replicate]. rewrite poll_all_cons, IH by now apply Poll_wf.
    cbn [Poll after errCount]. unfold Int64.add.
    rewrite Int64Facts.wrap_add_l. f_equal. lia.
Qed.

(** A single poll of a counter in [0, 2^63 - 1) resets or increments. *)
Lemma Poll_errCount_step r head :
  0 <= errCount r < Int64.max_int ->
  errCount (after (Poll r head)) = 0
  \/ errCount (after (Poll r head)) = errCount r + 1.
Proof.
  intros Hr. destruct head as [resp|err]; [now left|right].
  cbn [Poll after errCount]. rewrite Int64Facts.add_1.
  - case_decide; lia.
  - unfold Int64.in_range, Int64.min_int. lia.
Qed.

Lemma poll_all_bounds heads : forall r,
  0 <= errCount r ->
  errCount r + Z.of_nat (length heads) <= Int64.max_int ->
  0 <= errCount (poll_all r heads) <= errCount r + Z.of_nat (length heads).
Proof.
  induction heads as [|head heads IH]; intros r Hlo Hhi.
  - cbn [poll_all foldl length] in *. lia.
  - rewrite poll_all_cons. cbn [length] in *.
    destruct (Poll_errCount_step r head) as [H0|H1]; [lia| |].
    + specialize (IH (after (Poll r head))). lia.
    + specialize (IH (after (Poll r head))). lia.
Qed.

(** C6, as amended: a Resource is created with its counter at 0, each
    [Poll] either resets the counter to 0 or adds 1 to it modulo 2^64 (so
    -2^63 follows 2^63 - 1), and the counter is non-negative after any
    sequence of at most 2^63 - 1 polls of a new Resource. *)
Theorem errCount_lifetime (u : string) (heads : list HeadResult) :
  Z.of_nat (length heads) <= Int64.max_int ->
  errCount (newResource u) = 0
  /\ 0 <= errCount (poll_all (newResource u) heads) <= Z.of_nat (length heads)
  /\ (forall head,
        let r := poll_all (newResource u) heads in
        errCount (after (Poll r head)) = 0
        \/ errCount (after (Poll r head))
             = (if decide (errCount r = Int64.max_int)
                then Int64.min_int else errCount r + 1)).
Proof.
  intros Hlen.
  assert (Hb : 0 <= errCount (poll_all (newResource u) heads)
               <= Z.of_nat (length heads)).
  { pose proof (poll_all_bounds heads (newResource u)) as H.
    cbn [newResource errCount] in H. lia. }
  split; [reflexivity|]. split; [exact Hb|].
  intros head r. destruct head as [resp|err]; [now left|right].
  cbn [Poll after errCount]. apply Int64Facts.add_1.
  unfold Int64.in_range, Int64.min_int. subst r. lia.
Qed.

Lemma errCount_lifetime_witness :
  let heads := [ HeadErr {| Error := "i/o timeout" |};
                 HeadErr {| Error := "i/o timeout" |};
                 HeadOk {| Status := "200 OK" |} ] in
  errCount (newResource "http://golang.org/") = 0
  /\ 0 <= errCount (poll_all (newResource "http://golang.org/") heads) <= 3
  /\ (forall head,
        let r := poll_all (newResource "http://golang.org/") heads in
        errCount (after (Poll r head)) = 0
        \/ errCount (after (Poll r head))
             = (if decide (errCount r = Int64.max_int)
                then Int64.min_int else errCount r + 1)).
Proof.
  apply (errCount_lifetime "http://golang.org/"
           [ HeadErr {| Error := "i/o timeout" |};
             HeadErr {| Error := "i/o timeout" |};
             HeadOk {| Status := "200 OK" |} ]).
  vm_compute. discriminate.
Defined.

(** C6 as stated fails: a failed probe takes the non-negative counter
    2^63 - 1 to -2^63, and that state is met in the lifetime of a new
    Resource, after 2^63 failed probes in a row. *)
Lemma errCount_nonneg_fails :
  (let r := {| url := "http://golang.org/"; errCount := Int64.max_int |} in
   0 <= errCount r
   /\ errCount (after (Poll r (HeadErr {| Error := "i/o timeout" |}))) < 0)
  /\ errCount
       (poll_all (newResource "http://golang.org/")
          (replicate (Z.to_nat (2 ^ 63)) (HeadErr {| Error := "i/o timeout" |})))
     < 0.
Proof.
  split.
  - cbv zeta. split; [discriminate|reflexivity].
  - rewrite poll_all_failures by (split; discriminate).
    rewrite Z2Nat.id by (apply Z.pow_nonneg; lia).
    reflexivity.
Qed.

(** ** The monitor *)

Lemma StateMonitor_step_Tick_inv urlStatus table out :
  StateMonitor_step urlStatus Tick table out ->
  table = urlStatus
  /\ exists visit, range_order urlStatus visit /\ out = logState visit.
Proof. inversion 1; subst. eauto. Qed.

Lemma StateMonitor_step_Update_inv urlStatus s table out :
  StateMonitor_step urlStatus (Update s) table out ->
  table = <[s_url s := s_status s]> urlStatus /\ out = [].
Proof. inversion 1; subst. eauto. Qed.

(** The two orders of a range over a map with two entries. *)
Lemma two_up_order1 :
  range_order two_up
    [ ("http://golang.org/", "200 OK"); ("http://blog.golang.org/", "200 OK") ]%string.
Proof.
  unfold range_order, two_up.
  rewrite map_to_list_insert by (now apply lookup_singleton_ne).
  now rewrite map_to_list_singleton.
Qed.

Lemma two_up_order2 :
  range_order two_up
    [ ("http://blog.golang.org/", "200 OK"); ("http://golang.org/", "200 OK") ]%string.
Proof.
  unfold range_order. rewrite <- two_up_order1. apply perm_swap.
Qed.

(** C3: the loop of the monitor has exactly two kinds of iteration. On a
    State received from [updates] the map gets urlStatus[s.url] = s.status
    and nothing is logged. On a tick the map stays as it is and a snapshot
    of it is logged: the message "Current state:" and then, for every entry
    of the map, once, in the order of the range over the map, the message
    made of a space, the URL, a space and the status. *)
Theorem StateMonitor_step_cases (urlStatus : gmap string string) (c : Select)
    (table : gmap string string) (out : list string) :
  StateMonitor_step urlStatus c table out <->
  match c with
  | Update s =>
      table = <[s_url s := s_status s]> urlStatus
      /\ table !! s_url s = Some (s_status s)
      /\ out = []
  | Tick =>
      table = urlStatus
      /\ exists visit,
           visit ≡ₚ map_to_list urlStatus
           /\ out = "Current state:"%string
                      :: map (fun kv => " " +:+ kv.1 +:+ " " +:+ kv.2) visit
  end.
Proof.
  split.
  - intros Hstep. destruct c as [|s].
    + apply StateMonitor_step_Tick_inv in Hstep as [-> (visit & Hv & ->)].
      split; [reflexivity|]. exists visit. split; [exact Hv|reflexivity].
    + apply StateMonitor_step_Update_inv in Hstep as [-> ->].
      split; [reflexivity|]. split; [apply lookup_insert_eq|reflexivity].
  - destruct c as [|s].
    + intros [-> (visit & Hv & ->)]. exact (StateMonitor_tick urlStatus visit Hv).
    + intros (-> & _ & ->). apply StateMonitor_update.
Qed.

Lemma StateMonitor_step_cases_witness :
  (two_up = two_up
   /\ exists visit,
        visit ≡ₚ map_to_list two_up
        /\ [ "Current state:";
             " http://golang.org/ 200 OK";
             " http://blog.golang.org/ 200 OK" ]%string
           = "Current state:"%string
               :: map (fun kv => " " +:+ kv.1 +:+ " " +:+ kv.2) visit)
  /\ (let s := {| s_url := "http://golang.org/"; s_status := "i/o timeout" |} in
      <[s_url s := s_status s]> two_up = <[s_url s := s_status s]> two_up
      /\ <[s_url s := s_status s]> two_up !! s_url s = Some (s_status s)
      /\ @nil string = []).
Proof.
  split.
  - apply (proj1 (StateMonitor_step_cases two_up Tick two_up
                    [ "Current state:";
                      " http://golang.org/ 200 OK";
                      " http://blog.golang.org/ 200 OK" ]%string)).
    exact (StateMonitor_tick two_up _ two_up_order1).
  - intros s.
    apply (proj1 (StateMonitor_step_cases two_up (Update s)
                    (<[s_url s := s_status s]> two_up) [])).
    apply StateMonitor_update.
Defined.

(** Every communication can be served, whatever the map holds. *)
Lemma StateMonitor_step_total urlStatus c :
  exists table out, StateMonitor_step urlStatus c table out.
Proof.
  destruct c as [|s].
  - exists urlStatus, (logState (map_to_list urlStatus)).
    apply StateMonitor_tick. unfold range_order. reflexivity.
  - eexists _, _. apply StateMonitor_update.
Qed.

(** C9: serving a State touches only the entry of its endpoint: every other
    key keeps its value, present or absent, and the key set grows by at
    most that one key. *)
Theorem update_frame (urlStatus table : gmap string string) (s : State)
    (out : list string) :
  StateMonitor_step urlStatus (Update s) table out ->
  (forall k, k ≠ s_url s -> table !! k = urlStatus !! k)
  /\ dom table = {[ s_url s ]} ∪ dom urlStatus
  /\ dom urlStatus ⊆ dom table
  /\ dom table ∖ dom urlStatus ⊆ {[ s_url s ]}.
Proof.
  intros Hstep. apply StateMonitor_step_Update_inv in Hstep as [-> _].
  split; [|split; [|split]].
  - intros k Hk. now apply lookup_insert_ne.
  - apply dom_insert_L.
  - rewrite dom_insert_L. apply union_subseteq_r.
  - rewrite dom_insert_L. intros k Hk.
    apply elem_of_difference in Hk as [Hk Hfresh].
    apply elem_of_union in Hk as [Hk|Hk]; [exact Hk|contradiction].
Qed.

Lemma update_frame_witness :
  let urlStatus : gmap string string := {[ "http://golang.org/" := "200 OK" ]}%string in
  let s := {| s_url := "http://blog.golang.org/"; s_status := "404 Not Found" |} in
  let table := <[s_url s := s_status s]> urlStatus in
  (forall k, k ≠ s_url s -> table !! k = urlStatus !! k)
  /\ dom table = {[ s_url s ]} ∪ dom urlStatus
  /\ dom urlStatus ⊆ dom table
  /\ dom table ∖ dom urlStatus ⊆ {[ s_url s ]}.
Proof.
  intros urlStatus s table.
  apply (update_frame urlStatus table s []).
  apply StateMonitor_update.
Defined.

(** ** Sequences of updates *)

Lemma apply_updates_snoc m evs s :
  apply_updates m (evs ++ [s]) = <[s_url s := s_status s]> (apply_updates m evs).
Proof. unfold apply_updates. now rewrite foldl_app. Qed.

Lemma events_of_snoc u evs s :
  events_of u (evs ++ [s])
    = events_of u evs ++ (if decide (s_url s = u) then [s] else []).
Proof.
  unfold events_of. now rewrite filter_app.
Qed.

(** A run that serves only States performs [apply_updates] and logs
    nothing. *)
Lemma StateMonitor_run_updates evs : forall m table out,
  StateMonitor_run m (Update <$> evs) table out ->
  table = apply_updates m evs /\ out = [].
Proof.
  induction evs as [|s evs IH]; intros m table out Hrun.
  - inversion Hrun; subst. split; reflexivity.
  - cbn [fmap list_fmap] in Hrun. inversion Hrun as [|c cs mid final o1 o2 Hstep Hrest]; subst.
    apply StateMonitor_step_Update_inv in Hstep as [-> ->].
    apply IH in Hrest as [-> ->]. split; reflexivity.
Qed.

Lemma StateMonitor_run_updates_total evs : forall m,
  StateMonitor_run m (Update <$> evs) (apply_updates m evs) [].
Proof.
  induction evs as [|s evs IH]; intros m.
  - constructor.
  - cbn [fmap list_fmap]. change (@nil string) with (@nil string ++ []).
    econstructor; [apply StateMonitor_update|apply IH].
Qed.

(** After the updates, an endpoint holds the status of its last event, and
    an endpoint without event holds what it held before. *)
Lemma apply_updates_lookup evs : forall (m : gmap string string) u,
  apply_updates m evs !! u
    = match last (events_of u evs) with
      | Some s => Some (s_status s)
      | None => m !! u
      end.
Proof.
  induction evs as [|s evs IH] using rev_ind; intros m u.
  - reflexivity.
  - rewrite apply_updates_snoc, events_of_snoc.
    case_decide as Hu.
    + subst u. rewrite last_snoc. apply lookup_insert_eq.
    + rewrite app_nil_r, lookup_insert_ne by exact Hu. apply IH.
Qed.



(** ** Ticks *)

(** C5: two ticks in a row, with no State served between them, produce
    identical snapshots. Neither tick changes the map; each logs the message
    "Current state:" and then one message per entry of the map (a space,
    the URL, a space, the status), every URL once; and the entries logged by
    the first tick and those logged by the second, read as a table, are the
    same table, the map of the monitor itself. *)
Theorem consecutive_ticks (urlStatus table1 table2 : gmap string string)
    (out1 out2 : list string) :
  StateMonitor_step urlStatus Tick table1 out1 ->
  StateMonitor_step table1 Tick table2 out2 ->
  table1 = urlStatus /\ table2 = urlStatus
  /\ exists visit1 visit2,
       out1 = "Current state:"%string
                :: map (fun kv => " " +:+ kv.1 +:+ " " +:+ kv.2) visit1
       /\ out2 = "Current state:"%string
                   :: map (fun kv => " " +:+ kv.1 +:+ " " +:+ kv.2) visit2
       /\ NoDup visit1.*1 /\ NoDup visit2.*1
       /\ (list_to_map visit1 : gmap string string) = list_to_map visit2
       /\ list_to_map visit1 = urlStatus.
Proof.
  intros H1 H2.
  apply StateMonitor_step_Tick_inv in H1 as [-> (visit1 & Hv1 & ->)].
  apply StateMonitor_step_Tick_inv in H2 as [-> (visit2 & Hv2 & ->)].
  unfold range_order in *.
  assert (Hm1 : list_to_map visit1 = urlStatus)
    by (symmetry; now apply list_to_map_flip).
  assert (Hm2 : list_to_map visit2 = urlStatus)
    by (symmetry; now apply list_to_map_flip).
  split; [reflexivity|]. split; [reflexivity|].
  exists visit1, visit2.
  split; [reflexivity|]. split; [reflexivity|].
  split; [rewrite Hv1; apply NoDup_fst_map_to_list|].
  split; [rewrite Hv2; apply NoDup_fst_map_to_list|].
  split; [now rewrite Hm1, Hm2|exact Hm1].
Qed.

Lemma consecutive_ticks_witness :
  two_up = two_up /\ two_up = two_up
  /\ exists visit1 visit2,
       [ "Current state:";
         " http://golang.org/ 200 OK";
         " http://blog.golang.org/ 200 OK" ]%string
         = "Current state:"%string
             :: map (fun kv => " " +:+ kv.1 +:+ " " +:+ kv.2) visit1
       /\ [ "Current state:";
            " http://blog.golang.org/ 200 OK";
            " http://golang.org/ 200 OK" ]%string
            = "Current state:"%string
                :: map (fun kv => " " +:+ kv.1 +:+ " " +:+ kv.2) visit2
       /\ NoDup visit1.*1 /\ NoDup visit2.*1
       /\ (list_to_map visit1 : gmap string string) = list_to_map visit2
       /\ list_to_map visit1 = two_up.
Proof.
  apply (consecutive_ticks two_up two_up two_up).
  - exact (StateMonitor_tick two_up _ two_up_order1).
  - exact (StateMonitor_tick two_up _ two_up_order2).
Defined.

(** ** The Poller loop *)

Lemma Poller_app received more :
  Poller (received ++ more) = Poller received ++ Poller more.
Proof.
  induction received as [|[r head] received IH]; [reflexivity|].
  cbn [app Poller]. now rewrite IH, app_assoc.
Qed.

(** C7: a failed probe does not leave the Poller as an error. [Poll]
    returns a string for every answer of the probe (the description of the
    error when it failed), and the loop goes through every resource it
    receives whatever the answers are: each one gives rise to one State on
    the status channel and is sent once on the out channel, those that
    follow a failed probe included. *)
Theorem Poller_never_stops (received : list (Resource * HeadResult)) :
  (forall r head,
      returned (Poll r head)
        = match head with
          | HeadOk resp => Status resp
          | HeadErr err => Error err
          end)
  /\ status_sends (Poller received)
       = (fun rh => {| s_url := url rh.1;
                       s_status := returned (Poll rh.1 rh.2) |}) <$> received
  /\ out_sends (Poller received)
       = (fun rh => after (Poll rh.1 rh.2)) <$> received
  /\ length (Poller received) = (2 * length received)%nat
  /\ (forall more, Poller (received ++ more) = Poller received ++ Poller more).
Proof.
  split; [now intros r [resp|err]|].
  split; [|split; [|split]].
  - induction received as [|[r head] received IH]; [reflexivity|].
    cbn [Poller Poller_body app status_sends omap list_omap fmap list_fmap fst snd].
    rewrite Poll_url. f_equal. exact IH.
  - induction received as [|[r head] received IH]; [reflexivity|].
    cbn [Poller Poller_body app out_sends omap list_omap fmap list_fmap fst snd].
    f_equal. exact IH.
  - induction received as [|[r head] received IH]; [reflexivity|].
    cbn [Poller Poller_body app length]. rewrite IH. lia.
  - apply Poller_app.
Qed.

(** ** The number of resources in flight *)

Lemma held_at_most_one p : (length (held p) <= 1)%nat.
Proof. destruct p; cbn; lia. Qed.

Lemma in_flight_at_most ps :
  (length (concat (held <$> ps)) <= length ps)%nat.
Proof.
  induction ps as [|p ps IH]; [reflexivity|].
  cbn [fmap list_fmap concat length]. rewrite length_app.
  pose proof (held_at_most_one p). lia.
Qed.

Lemma step_pollers_length sys sys' :
  step sys sys' -> length (pollers sys') = length (pollers sys).
Proof.
  destruct 1; cbn [pollers]; rewrite ?length_insert; reflexivity.
Qed.

Lemma reachable_pollers_length sys :
  reachable sys -> length (pollers sys) = numPollers.
Proof.
  induction 1 as [|sys sys' _ IH Hstep].
  - cbn [ShareMemory pollers]. apply length_replicate.
  - now rewrite (step_pollers_length _ _ Hstep).
Qed.

(** C8: in every state of every execution the number of resources held by
    Pollers is at most numPollers. The channels hold nothing: a resource
    passes from its sender to a Poller only in a joint step with a Poller
    that stands at its receive, and a Poller holds one resource at a
    time. *)
Theorem in_flight_bounded (sys : System) :
  reachable sys -> (length (in_flight sys) <= numPollers)%nat.
Proof.
  intros Hreach. rewrite <- (reachable_pollers_length sys Hreach).
  apply in_flight_at_most.
Qed.

Lemma reachable_both_polling : reachable both_polling.
Proof.
  apply (reachable_step first_polling).
  - apply (reachable_step ShareMemory); [apply reachable_start|].
    exact (step_seed ShareMemory 0 "http://www.google.com/"
             ["http://golang.org/"; "http://blog.golang.org/"]%string
             eq_refl eq_refl).
  - exact (step_seed first_polling 1 "http://golang.org/"
             ["http://blog.golang.org/"%string] eq_refl eq_refl).
Qed.

Lemma in_flight_bounded_witness :
  (length (in_flight both_polling) <= numPollers)%nat.
Proof. apply in_flight_bounded. apply reachable_both_polling. Defined.

(** The bound is met: both Pollers busy, the third URL still waiting. *)
Example both_polling_full :
  length (in_flight both_polling) = numPollers
  /\ seed both_polling = ["http://blog.golang.org/"%string].
Proof. split; reflexivity. Qed.

(** With a Poller at its receive, fewer resources are held than there are
    Pollers. *)
Lemma idle_poller_not_full ps i :
  ps !! i = Some AtReceive ->
  (length (concat (held <$> ps)) < length ps)%nat.
Proof.
  revert i. induction ps as [|p ps IH]; intros [|i] Hi; try discriminate.
  - injection Hi as ->. cbn [fmap list_fmap concat held app length].
    pose proof (in_flight_at_most ps). lia.
  - cbn [fmap list_fmap concat length]. rewrite length_app.
    pose proof (held_at_most_one p). specialize (IH i Hi). lia.
Qed.

(** X10: back-pressure. In a state where every Poller holds a resource, no
    step of the program hands a resource over to a Poller: the seeding
    goroutine keeps its URLs and every sleeper stays a sleeper. *)
Lemma full_blocks_senders sys sys' :
  reachable sys ->
  length (in_flight sys) = numPollers ->
  step sys sys' ->
  seed sys' = seed sys /\ sleepers sys ⊆ sleepers sys'.
Proof.
  intros Hreach Hfull Hstep.
  pose proof (reachable_pollers_length sys Hreach) as Hlen.
  unfold in_flight in Hfull.
  destruct Hstep as [sys i u rest Hseed Hi|sys i r before behind Hsl Hi| | | | |];
    cbn [seed sleepers]; try (split; [reflexivity|set_solver]).
  - apply idle_poller_not_full in Hi. lia.
  - apply idle_poller_not_full in Hi. lia.
Qed.

Lemma full_blocks_senders_witness :
  let sys' :=
    {| pollers :=
         <[0%nat := AtStatus
                      (after (Poll (newResource "http://www.google.com/")
                                (HeadOk {| Status := "200 OK" |})))
                      (returned (Poll (newResource "http://www.google.com/")
                                   (HeadOk {| Status := "200 OK" |})))]>
           (pollers both_polling);
       seed := seed both_polling; received := received both_polling;
       sleepers := sleepers both_polling;
       urlStatus := urlStatus both_polling;
       stdlog := stdlog both_polling
                   ++ logged (Poll (newResource "http://www.google.com/")
                                (HeadOk {| Status := "200 OK" |})) |} in
  seed sys' = seed both_polling /\ sleepers both_polling ⊆ sleepers sys'.
Proof.
  intros sys'. apply (full_blocks_senders both_polling sys').
  - apply reachable_both_polling.
  - reflexivity.
  - exact (step_poll both_polling 0 (newResource "http://www.google.com/")
             (HeadOk {| Status := "200 OK" |}) eq_refl).
Defined.

(** ** Every resource is in one place *)

Lemma held_insert (ps : list PollerAt) i p p' :
  ps !! i = Some p ->
  concat (held <$> <[i := p']> ps) ++ held p ≡ₚ held p' ++ concat (held <$> ps).
Proof.
  revert i. induction ps as [|q ps IH]; intros [|i] Hi; try discriminate.
  - injection Hi as ->. cbn [insert list_insert fmap list_fmap concat].
    rewrite <- app_assoc. f_equiv. apply Permutation_app_comm.
  - cbn [insert list_insert fmap list_fmap concat].
    rewrite <- app_assoc, (IH i Hi), !app_assoc.
    f_equiv. apply Permutation_app_comm.
Qed.

Lemma step_urls_of sys sys' : step sys sys' -> urls_of sys' ≡ₚ urls_of sys.
Proof.
  unfold urls_of, all_resources, in_flight.
  destruct 1 as [sys i u rest Hseed Hi|sys i r before behind Hsl Hi
                |sys i r head Hi|sys i r s table out Hi Hmon
                |sys i r Hi Hmain|sys r Hmain|sys table out Hmon];
    cbn [pollers seed received sleepers]; try reflexivity.
  - pose proof (held_insert _ _ _ (AtPoll (newResource u)) Hi) as H.
    cbn [held] in H. rewrite app_nil_r in H. rewrite H, Hseed.
    rewrite ?fmap_app, ?fmap_cons, ?fmap_nil. cbn [newResource url].
    solve_Permutation.
  - pose proof (held_insert _ _ _ (AtPoll r) Hi) as H.
    cbn [held] in H. rewrite app_nil_r in H. rewrite H, Hsl.
    rewrite ?fmap_app, ?fmap_cons, ?fmap_nil.
    solve_Permutation.
  - pose proof (held_insert _ _ _
                  (AtStatus (after (Poll r head)) (returned (Poll r head))) Hi) as H.
    cbn [held] in H. apply (fmap_Permutation url) in H.
    rewrite ?fmap_app, ?fmap_cons, ?fmap_nil, Poll_url in H.
    rewrite !fmap_app. f_equiv. f_equiv.
    apply (Permutation_app_inv_r [url r]). rewrite H. solve_Permutation.
  - pose proof (held_insert _ _ _ (AtOut r) Hi) as H.
    cbn [held] in H.
    rewrite !fmap_app. f_equiv. f_equiv. f_equiv.
    apply (Permutation_app_inv_r [r]). rewrite H. solve_Permutation.
  - pose proof (held_insert _ _ _ AtReceive Hi) as H.
    cbn [held app] in H. rewrite <- H, Hmain.
    cbn [option_list]. rewrite ?fmap_app, ?fmap_cons, ?fmap_nil.
    solve_Permutation.
  - rewrite Hmain. cbn [option_list].
    rewrite ?fmap_app, ?fmap_cons, ?fmap_nil.
    solve_Permutation.
Qed.

(** At every moment each configured URL has exactly one resource, which is
    with the seeding goroutine, a Poller, the main loop or a sleeper. *)
Lemma reachable_urls_of sys : reachable sys -> urls_of sys ≡ₚ urls.
Proof.
  induction 1 as [|sys sys' _ IH Hstep].
  - unfold urls_of, all_resources, in_flight.
    cbn. reflexivity.
  - now rewrite (step_urls_of _ _ Hstep).
Qed.


(** * Further properties of the code *)

(** ** The counter and the delay along a history of probes *)

Lemma poll_all_url heads : forall r, url (poll_all r heads) = url r.
Proof.
  induction heads as [|head heads IH]; intros r; [reflexivity|].
  now rewrite poll_all_cons, IH, Poll_url.
Qed.

(** Failed probes in a row add their number to the counter, modulo 2^64. *)
Lemma poll_all_failed fails : forall r,
  Forall (fun head => failed head = true) fails ->
  wf_Resource r ->
  errCount (poll_all r fails) = Int64.wrap (errCount r + Z.of_nat (length fails)).
Proof.
  induction fails as [|head fails IH]; intros r Hfails Hwf.
  - cbn [poll_all foldl length]. rewrite Z.add_0_r.
    symmetry. now apply Int64Facts.wrap_small.
  - apply Forall_cons in Hfails as [Hhead Hfails].
    destruct head as [resp|err]; [discriminate|].
    rewrite poll_all_cons, IH by (try apply Poll_wf; assumption).
    cbn [Poll after errCount length]. unfold Int64.add.
    rewrite Int64Facts.wrap_add_l. f_equal. lia.
Qed.

(** X1: the counter is the number of errors since the last successful
    poll: after any history of probes that ends with a success followed by
    n failures, n at most 2^63 - 1, the counter is n, whatever came before
    the success and whatever the counter was at the start. *)
Theorem errCount_since_last_success (r : Resource) (heads fails : list HeadResult)
    (resp : Response) :
  Forall (fun head => failed head = true) fails ->
  Z.of_nat (length fails) <= Int64.max_int ->
  errCount (poll_all r (heads ++ HeadOk resp :: fails)) = Z.of_nat (length fails)
  /\ url (poll_all r (heads ++ HeadOk resp :: fails)) = url r.
Proof.
  intros Hfails Hlen. split; [|apply poll_all_url].
  rewrite poll_all_app, poll_all_cons, poll_all_failed; [|exact Hfails|].
  - cbn [Poll after errCount]. apply Int64Facts.wrap_small.
    unfold Int64.in_range, Int64.min_int. lia.
  - unfold wf_Resource, Int64.in_range, Int64.min_int, Int64.max_int.
    cbn [Poll after errCount]. lia.
Qed.

Lemma errCount_since_last_success_witness :
  let r := {| url := "http://golang.org/"; errCount := 7 |} in
  let heads := [ HeadErr {| Error := "i/o timeout" |} ] in
  let fails := [ HeadErr {| Error := "i/o timeout" |};
                 HeadErr {| Error := "connection refused" |} ] in
  errCount (poll_all r (heads ++ HeadOk {| Status := "200 OK" |} :: fails)) = 2
  /\ url (poll_all r (heads ++ HeadOk {| Status := "200 OK" |} :: fails)) = url r.
Proof.
  intros r heads fails.
  apply (errCount_since_last_success r heads fails {| Status := "200 OK" |}).
  - repeat constructor.
  - vm_compute. discriminate.
Defined.

(** X2: while the counter is in [0, 922337197), a failed probe makes the
    next delay of [Sleep] exactly errTimeout (10 s) longer than it would
    have been. *)
Theorem failed_poll_lengthens_delay (r : Resource) (err : error) :
  0 <= errCount r < last_exact_errCount ->
  Sleep_delay (after (Poll r (HeadErr err))) = Sleep_delay r + errTimeout.
Proof.
  intros Hr. rewrite last_exact_errCount_value in Hr.
  rewrite !Sleep_delay_exact.
  - cbn [Poll after errCount]. rewrite Int64Facts.add_1.
    + case_decide as Hmax; [unfold Int64.max_int in Hmax; lia|].
      unfold errTimeout. lia.
    + unfold Int64.in_range, Int64.min_int, Int64.max_int. lia.
  - unfold Int64.in_range, Int64.min_int, Int64.max_int,
      pollInterval, errTimeout, Second. lia.
  - cbn [Poll after errCount]. rewrite Int64Facts.add_1.
    + case_decide as Hmax; [unfold Int64.max_int in Hmax; lia|].
      unfold Int64.in_range, Int64.min_int, Int64.max_int,
        pollInterval, errTimeout, Second. lia.
    + unfold Int64.in_range, Int64.min_int, Int64.max_int. lia.
Qed.

Lemma failed_poll_lengthens_delay_witness :
  Sleep_delay
    (after (Poll {| url := "http://golang.org/"; errCount := 1 |}
              (HeadErr {| Error := "i/o timeout" |})))
  = Sleep_delay {| url := "http://golang.org/"; errCount := 1 |} + errTimeout.
Proof.
  apply (failed_poll_lengthens_delay
           {| url := "http://golang.org/"; errCount := 1 |}
           {| Error := "i/o timeout" |}).
  rewrite last_exact_errCount_value. cbn. lia.
Defined.

(** X3: for counters in [0, 922337197] the delay of [Sleep] is at least
    pollInterval and grows with the counter, strictly so. *)
Theorem Sleep_delay_monotone (r1 r2 : Resource) :
  0 <= errCount r1 ->
  errCount r1 <= errCount r2 ->
  errCount r2 <= last_exact_errCount ->
  pollInterval <= Sleep_delay r1 <= Sleep_delay r2
  /\ (errCount r1 < errCount r2 -> Sleep_delay r1 < Sleep_delay r2)
  /\ Sleep_delay r2 - Sleep_delay r1 = errTimeout * (errCount r2 - errCount r1).
Proof.
  intros H0 H12 H2. rewrite last_exact_errCount_value in H2.
  rewrite !Sleep_delay_exact;
    unfold Int64.in_range, Int64.min_int, Int64.max_int,
      pollInterval, errTimeout, Second; lia.
Qed.

Lemma Sleep_delay_monotone_witness :
  let r1 := {| url := "http://golang.org/"; errCount := 0 |} in
  let r2 := {| url := "http://blog.golang.org/"; errCount := 3 |} in
  pollInterval <= Sleep_delay r1 <= Sleep_delay r2
  /\ (errCount r1 < errCount r2 -> Sleep_delay r1 < Sleep_delay r2)
  /\ Sleep_delay r2 - Sleep_delay r1 = errTimeout * (errCount r2 - errCount r1).
Proof.
  intros r1 r2. apply (Sleep_delay_monotone r1 r2).
  - cbn. lia.
  - cbn. lia.
  - rewrite last_exact_errCount_value. cbn. lia.
Defined.

(** ** Runs of the monitor *)

Lemma apply_updates_cons m s evs :
  apply_updates m (s :: evs) = apply_updates (<[s_url s := s_status s]> m) evs.
Proof. reflexivity. Qed.

Lemma StateMonitor_run_table m cs table out :
  StateMonitor_run m cs table out -> table = apply_updates m (updates_in cs).
Proof.
  induction 1 as [|m c cs mid final out1 out2 Hstep _ IH]; [reflexivity|].
  destruct c as [|s].
  - apply StateMonitor_step_Tick_inv in Hstep as [-> _]. exact IH.
  - apply StateMonitor_step_Update_inv in Hstep as [-> _]. exact IH.
Qed.

(** X4: ticks are transparent for the map: after any run of the monitor,
    with ticks and States interleaved in any way, the map is the one that
    the States alone, in their order, would have produced; so an endpoint
    holds the status of its last State, or its initial value if it
    received none. *)
Theorem ticks_are_transparent (m table : gmap string string) (cs : list Select)
    (out : list string) :
  StateMonitor_run m cs table out ->
  table = apply_updates m (updates_in cs)
  /\ (forall u,
        table !! u = match last (events_of u (updates_in cs)) with
                     | Some s => Some (s_status s)
                     | None => m !! u
                     end)
  /\ (updates_in cs = [] -> table = m).
Proof.
  intros Hrun. apply StateMonitor_run_table in Hrun as ->.
  split; [reflexivity|]. split.
  - intros u. apply apply_updates_lookup.
  - intros ->. reflexivity.
Qed.

Lemma ticks_are_transparent_witness :
  let s := {| s_url := "http://golang.org/"; s_status := "200 OK" |} in
  let cs := [Tick; Update s; Tick] in
  let table := <[s_url s := s_status s]> two_up in
  table = apply_updates two_up (updates_in cs)
  /\ (forall u,
        table !! u = match last (events_of u (updates_in cs)) with
                     | Some s => Some (s_status s)
                     | None => two_up !! u
                     end)
  /\ (updates_in cs = [] -> table = two_up).
Proof.
  intros s cs table.
  apply (ticks_are_transparent two_up table cs
           (logState (map_to_list two_up) ++ []
              ++ logState (map_to_list table) ++ [])).
  econstructor; [apply StateMonitor_tick; unfold range_order; reflexivity|].
  econstructor; [apply StateMonitor_update|].
  econstructor; [apply StateMonitor_tick; unfold range_order; reflexivity|].
  constructor.
Defined.

(** X5: what a run of the monitor logs, tick by tick. The log of a run is
    the concatenation, over its ticks in order, of the message
    "Current state:" followed by one message per entry (a space, the URL, a
    space, the status) of the map as it stood at that tick, that is with
    the States served before the tick applied in order. Only the order of
    the entry messages within one tick is open; serving a State logs
    nothing. *)
Theorem run_log_by_ticks (m table : gmap string string) (cs : list Select)
    (out : list string) :
  StateMonitor_run m cs table out ->
  exists visits,
    Forall2 (fun visit t => visit ≡ₚ map_to_list t)
      visits (tables_at_ticks m cs)
    /\ out = concat
               ((fun visit =>
                   "Current state:"%string
                     :: map (fun kv => " " +:+ kv.1 +:+ " " +:+ kv.2) visit)
                  <$> visits).
Proof.
  induction 1 as [|m c cs mid final out1 out2 Hstep _ (visits & Hall & ->)].
  - exists []. split; [constructor|reflexivity].
  - destruct c as [|s].
    + apply StateMonitor_step_Tick_inv in Hstep as [-> (visit & Hv & ->)].
      exists (visit :: visits). split; [|reflexivity].
      cbn [tables_at_ticks]. constructor; [exact Hv|exact Hall].
    + apply StateMonitor_step_Update_inv in Hstep as [-> ->].
      exists visits. split; [exact Hall|reflexivity].
Qed.

Lemma run_log_by_ticks_witness :
  let s := {| s_url := "http://www.google.com/"; s_status := "404 Not Found" |} in
  let cs := [Tick; Update s; Tick] in
  exists visits,
    Forall2 (fun visit t => visit ≡ₚ map_to_list t)
      visits (tables_at_ticks two_up cs)
    /\ [ "Current state:";
         " http://golang.org/ 200 OK";
         " http://blog.golang.org/ 200 OK";
         "Current state:";
         " http://www.google.com/ 404 Not Found";
         " http://blog.golang.org/ 200 OK";
         " http://golang.org/ 200 OK" ]%string
       = concat
           ((fun visit =>
               "Current state:"%string
                 :: map (fun kv => " " +:+ kv.1 +:+ " " +:+ kv.2) visit)
              <$> visits).
Proof.
  intros s cs.
  apply (run_log_by_ticks two_up (<[s_url s := s_status s]> two_up) cs
           (logState [ ("http://golang.org/", "200 OK");
                       ("http://blog.golang.org/", "200 OK") ]%string
              ++ [] ++
              logState [ ("http://www.google.com/", "404 Not Found");
                         ("http://blog.golang.org/", "200 OK");
                         ("http://golang.org/", "200 OK") ]%string
              ++ [])).
  econstructor; [exact (StateMonitor_tick two_up _ two_up_order1)|].
  econstructor; [apply StateMonitor_update|].
  econstructor; [|constructor].
  apply StateMonitor_tick. unfold range_order. cbn [s_url s_status].
  rewrite map_to_list_insert.
  - apply perm_skip. exact two_up_order2.
  - unfold two_up. rewrite lookup_insert_ne by discriminate.
    now apply lookup_singleton_ne.
Defined.

(** X6: a tick hands exactly 1 + len(urlStatus) messages to the logger: the
    message "Current state:" first and then, for each entry of the map, the
    message made of a space, the URL, a space and the status. With the
    empty map of a new monitor the header is the only message. *)
Theorem tick_message_count (m table : gmap string string) (out : list string) :
  StateMonitor_step m Tick table out ->
  length out = S (size m)
  /\ head out = Some "Current state:"%string
  /\ (forall k v, m !! k = Some v -> (" " +:+ k +:+ " " +:+ v) ∈ tail out)
  /\ (m = ∅ -> out = ["Current state:"%string]).
Proof.
  intros Hstep.
  apply StateMonitor_step_Tick_inv in Hstep as [-> (visit & Hv & ->)].
  unfold range_order in Hv. split; [|split; [|split]].
  - unfold logState. cbn [length]. rewrite length_map.
    now rewrite Hv, length_map_to_list.
  - reflexivity.
  - intros k v Hkv. unfold logState. cbn [tail].
    apply list_elem_of_In, in_map_iff. exists (k, v). split; [reflexivity|].
    apply list_elem_of_In. rewrite Hv. now apply elem_of_map_to_list.
  - intros ->. rewrite map_to_list_empty in Hv.
    apply Permutation_nil_r in Hv as ->. reflexivity.
Qed.

Lemma tick_message_count_witness :
  let out := [ "Current state:";
               " http://golang.org/ 200 OK";
               " http://blog.golang.org/ 200 OK" ]%string in
  length out = S (size two_up)
  /\ head out = Some "Current state:"%string
  /\ (forall k v, two_up !! k = Some v -> (" " +:+ k +:+ " " +:+ v) ∈ tail out)
  /\ (two_up = ∅ -> out = ["Current state:"%string]).
Proof.
  intros out. apply (tick_message_count two_up two_up out).
  exact (StateMonitor_tick two_up _ two_up_order1).
Defined.

(** ** The sends of a Poller *)

Lemma Poller_snoc received r head :
  Poller (received ++ [(r, head)]) = Poller received ++ Poller_body r head.
Proof. rewrite Poller_app. cbn [Poller]. now rewrite app_nil_r. Qed.

Lemma status_sends_snoc received r head :
  status_sends (Poller (received ++ [(r, head)]))
    = status_sends (Poller received)
        ++ [ {| s_url := url r; s_status := returned (Poll r head) |} ].
Proof.
  rewrite Poller_snoc. unfold status_sends. rewrite omap_app.
  cbn [Poller_body omap list_omap]. now rewrite Poll_url.
Qed.

(** X7: a Poller reports before it hands back: for the i-th resource it
    receives, its (2i)-th send is the State of that resource's URL with the
    string returned by [Poll], and its (2i+1)-th send is that resource, as
    [Poll] left it, on the out channel. *)
Theorem Poller_reports_then_returns (received : list (Resource * HeadResult))
    (i : nat) (r : Resource) (head : HeadResult) :
  received !! i = Some (r, head) ->
  Poller received !! (2 * i)%nat
    = Some (ToStatus {| s_url := url r; s_status := returned (Poll r head) |})
  /\ Poller received !! (2 * i + 1)%nat = Some (ToOut (after (Poll r head))).
Proof.
  revert i. induction received as [|[r0 head0] received IH]; intros i Hi.
  - discriminate.
  - destruct i as [|i].
    + injection Hi as -> ->. cbn [Poller Poller_body app Nat.mul Nat.add lookup list_lookup].
      rewrite Poll_url. split; reflexivity.
    + cbn [lookup list_lookup] in Hi. specialize (IH i Hi).
      replace (2 * S i)%nat with (S (S (2 * i))) by lia.
      replace (S (S (2 * i)) + 1)%nat with (S (S (2 * i + 1))) by lia.
      exact IH.
Qed.

Lemma Poller_reports_then_returns_witness :
  let r0 := newResource "http://www.google.com/" in
  let r1 := {| url := "http://golang.org/"; errCount := 1 |} in
  let fine := HeadOk {| Status := "200 OK" |} in
  let late := HeadErr {| Error := "i/o timeout" |} in
  Poller [(r0, fine); (r1, late)] !! (2 * 1)%nat
    = Some (ToStatus {| s_url := url r1; s_status := returned (Poll r1 late) |})
  /\ Poller [(r0, fine); (r1, late)] !! (2 * 1 + 1)%nat
     = Some (ToOut (after (Poll r1 late))).
Proof.
  intros r0 r1 fine late.
  apply (Poller_reports_then_returns [(r0, fine); (r1, late)] 1 r1 late).
  reflexivity.
Defined.

Lemma Poller_updates_lookup (m : gmap string string) received : forall u,
  apply_updates m (status_sends (Poller received)) !! u
    = match last (filter (fun rh => url rh.1 = u) received) with
      | Some rh => Some (returned (Poll rh.1 rh.2))
      | None => m !! u
      end.
Proof.
  induction received as [|[r head] received IH] using rev_ind; intros u.
  - reflexivity.
  - rewrite status_sends_snoc, apply_updates_snoc, filter_app.
    cbn [s_url s_status].
    destruct (decide (url r = u)) as [Hu|Hu].
    + rewrite (filter_cons_True _ _ _) by exact Hu.
      rewrite filter_nil, last_snoc. cbn [fst snd]. subst u.
      apply lookup_insert_eq.
    + rewrite (filter_cons_False _ _ _) by exact Hu.
      rewrite filter_nil, app_nil_r, lookup_insert_ne by exact Hu.
      apply IH.
Qed.

(** X8: a Poller feeding the monitor: once the monitor has served the
    States sent by a Poller, each URL the Poller has probed maps to the
    string returned by the last probe of that URL (the status of the
    response, or the description of the error), and every other URL maps to
    what it did before; nothing is logged by the monitor meanwhile. *)
Theorem Poller_feeds_StateMonitor (m table : gmap string string)
    (received : list (Resource * HeadResult)) (out : list string) :
  StateMonitor_run m (Update <$> status_sends (Poller received)) table out ->
  (forall u,
      table !! u
        = match last (filter (fun rh => url rh.1 = u) received) with
          | Some rh => Some (returned (Poll rh.1 rh.2))
          | None => m !! u
          end)
  /\ out = [].
Proof.
  intros Hrun. apply StateMonitor_run_updates in Hrun as [-> ->].
  split; [|reflexivity]. intros u. apply Poller_updates_lookup.
Qed.

Lemma Poller_feeds_StateMonitor_witness :
  let r := newResource "http://golang.org/" in
  let received := [ (r, HeadErr {| Error := "i/o timeout" |});
                    (after (Poll r (HeadErr {| Error := "i/o timeout" |})),
                     HeadOk {| Status := "200 OK" |}) ] in
  let table := apply_updates newStatus (status_sends (Poller received)) in
  (forall u,
      table !! u
        = match last (filter (fun rh => url rh.1 = u) received) with
          | Some rh => Some (returned (Poll rh.1 rh.2))
          | None => newStatus !! u
          end)
  /\ @nil string = [].
Proof.
  intros r received table.
  apply (Poller_feeds_StateMonitor newStatus table received []).
  apply StateMonitor_run_updates_total.
Defined.

(** ** The pipeline as a whole *)

Lemma NoDup_urls : NoDup urls.
Proof. unfold urls. compute_done. Qed.

Lemma held_in_flight (ps : list PollerAt) i p r :
  ps !! i = Some p -> r ∈ held p -> r ∈ concat (held <$> ps).
Proof.
  revert i. induction ps as [|q ps IH]; intros [|i] Hi Hr; try discriminate;
    cbn [fmap list_fmap concat]; apply elem_of_app.
  - injection Hi as ->. now left.
  - right. now apply (IH i).
Qed.

(** X9: ownership. In every state of every execution each configured URL
    has exactly one Resource, and that Resource is in exactly one place:
    not yet sent by the seeding goroutine, held by one Poller, just
    received by the main loop, or with one sleeper. *)
Theorem one_resource_per_url (sys : System) :
  reachable sys ->
  url <$> all_resources sys ≡ₚ urls
  /\ NoDup (all_resources sys)
  /\ length (all_resources sys) = length urls.
Proof.
  intros Hreach. pose proof (reachable_urls_of sys Hreach) as Hperm.
  unfold urls_of in Hperm. split; [exact Hperm|]. split.
  - apply (NoDup_fmap_1 url). rewrite Hperm. apply NoDup_urls.
  - rewrite <- (length_fmap url). now rewrite Hperm.
Qed.

Lemma one_resource_per_url_witness :
  url <$> all_resources both_polling ≡ₚ urls
  /\ NoDup (all_resources both_polling)
  /\ length (all_resources both_polling) = length urls.
Proof. apply one_resource_per_url. apply reachable_both_polling. Defined.

(** X11: the map of the monitor only ever holds configured URLs: in every
    state of every execution each key of urlStatus is one of [urls]. *)
Theorem urlStatus_keys_configured (sys : System) (u v : string) :
  reachable sys ->
  urlStatus sys !! u = Some v ->
  u ∈ urls.
Proof.
  intros Hreach. revert u v.
  induction Hreach as [|sys sys' Hreach IH Hstep]; intros u v Hu.
  - cbn [ShareMemory urlStatus] in Hu. unfold newStatus in Hu.
    rewrite lookup_empty in Hu. discriminate.
  - destruct Hstep as [sys i u0 rest Hseed Hi|sys i r before behind Hsl Hi
                      |sys i r head Hi|sys i r s table out Hi Hmon
                      |sys i r Hi Hmain|sys r Hmain|sys table out Hmon];
      cbn [urlStatus] in Hu; try (now apply (IH u v)).
    + apply StateMonitor_step_Update_inv in Hmon as [-> _].
      cbn [s_url s_status] in Hu.
      destruct (decide (url r = u)) as [<-|Hne].
      * rewrite <- (reachable_urls_of sys Hreach).
        unfold urls_of, all_resources, in_flight.
        apply list_elem_of_fmap_2. apply elem_of_app. right.
        apply elem_of_app. left.
        apply (held_in_flight _ i (AtStatus r s)); [exact Hi|].
        cbn [held]. apply list_elem_of_here.
      * rewrite lookup_insert_ne in Hu by exact Hne. now apply (IH u v).
    + apply StateMonitor_step_Tick_inv in Hmon as [-> _]. now apply (IH u v).
Qed.

Lemma reachable_first_reported : reachable first_reported.
Proof.
  apply (reachable_step first_polled).
  - apply (reachable_step both_polling); [apply reachable_both_polling|].
    exact (step_poll both_polling 0 (newResource "http://www.google.com/")
             (HeadOk {| Status := "200 OK" |}) eq_refl).
  - exact (step_status first_polled 0 (newResource "http://www.google.com/")
             "200 OK" _ [] eq_refl
             (StateMonitor_update newStatus
                {| s_url := "http://www.google.com/"; s_status := "200 OK" |})).
Qed.

Lemma urlStatus_keys_configured_witness :
  ("http://www.google.com/"%string : string) ∈ urls.
Proof.
  apply (urlStatus_keys_configured first_reported
           "http://www.google.com/" "200 OK").
  - apply reachable_first_reported.
  - apply lookup_insert_eq.
Defined.

(** ** No deadlock on the channels *)

Lemma insert_changes (ps : list PollerAt) i p p' :
  ps !! i = Some p -> p' ≠ p -> <[i := p']> ps ≠ ps.
Proof.
  intros Hi Hne Heq. apply (f_equal (fun l => l !! i)) in Heq.
  rewrite list_lookup_insert_eq in Heq by (now apply lookup_lt_Some in Hi).
  congruence.
Qed.

Lemma busy_or_all_idle (ps : list PollerAt) :
  (exists i p, ps !! i = Some p /\ idle p = false)
  \/ Forall (fun p => p = AtReceive) ps.
Proof.
  induction ps as [|p ps [(i & q & Hi & Hq)|Hall]].
  - right. constructor.
  - left. exists (S i), q. split; assumption.
  - destruct p as [|r|r s|r]; try (left; exists 0%nat; eexists; split; reflexivity).
    right. constructor; [reflexivity|exact Hall].
Qed.

Lemma all_idle_none_held (ps : list PollerAt) :
  Forall (fun p => p = AtReceive) ps -> concat (held <$> ps) = [].
Proof.
  induction 1 as [|p ps -> _ IH]; [reflexivity|].
  cbn [fmap list_fmap concat held app]. exact IH.
Qed.

(** X12: no deadlock on the channels. In every state of every execution in
    which no Poller is inside a probe (waiting for [http.Head] to answer),
    some goroutine other than the ticker can take its next step: a Poller
    receives a resource, reports or hands back, or the main loop launches a
    Sleep. The pause of a Sleep is taken to end (sleeps are not timed); a
    state where Pollers are inside probes moves on only when [http.Head]
    answers, which is outside the program. (Every step but a tick moves a
    Poller or the main loop.) *)
Theorem no_channel_deadlock (sys : System) :
  reachable sys ->
  (forall i r, pollers sys !! i ≠ Some (AtPoll r)) ->
  exists sys',
    step sys sys'
    /\ (pollers sys' ≠ pollers sys \/ received sys' ≠ received sys).
Proof.
  intros Hreach Hprobe.
  destruct (busy_or_all_idle (pollers sys)) as [(i & p & Hi & Hp)|Hidle].
  - destruct p as [|r|r s|r]; [discriminate| | |].
    + exfalso. exact (Hprobe i r Hi).
    + eexists. split;
        [exact (step_status sys i r s _ [] Hi (StateMonitor_update _ _))|].
      left. cbn [pollers]. apply (insert_changes _ _ _ _ Hi). discriminate.
    + destruct (received sys) as [r'|] eqn:Hmain.
      * eexists. split; [exact (step_go sys r' Hmain)|].
        right. cbn [received]. rewrite ?Hmain. discriminate.
      * eexists. split; [exact (step_complete sys i r Hi Hmain)|].
        left. cbn [pollers]. apply (insert_changes _ _ _ _ Hi). discriminate.
  - pose proof (reachable_urls_of sys Hreach) as Hperm.
    apply Permutation_length in Hperm.
    unfold urls_of, all_resources, in_flight in Hperm.
    rewrite (all_idle_none_held _ Hidle) in Hperm.
    rewrite length_fmap, !length_app, length_fmap in Hperm.
    cbn [length urls] in Hperm.
    pose proof (reachable_pollers_length sys Hreach) as Hlen.
    destruct (pollers sys) as [|p0 ps] eqn:Hps; [discriminate|].
    assert (H0 : pollers sys !! 0%nat = Some AtReceive).
    { rewrite Hps. apply Forall_cons in Hidle as [-> _]. reflexivity. }
    assert (Hch : forall r, <[0%nat := AtPoll r]> (pollers sys) ≠ pollers sys).
    { intros r. apply (insert_changes _ _ _ _ H0). discriminate. }
    rewrite <- Hps in *. clear Hps.
    destruct (received sys) as [r'|] eqn:Hmain.
    + eexists. split; [exact (step_go sys r' Hmain)|].
      right. cbn [received]. rewrite ?Hmain. discriminate.
    + destruct (seed sys) as [|u rest] eqn:Hseed.
      * destruct (sleepers sys) as [|r behind] eqn:Hsl;
          [rewrite ?Hmain, ?Hseed, ?Hsl in Hperm;
           cbn in Hperm; lia|].
        eexists. split; [exact (step_resubmit sys 0 r [] behind Hsl H0)|].
        left. cbn [pollers]. apply Hch.
      * eexists. split; [exact (step_seed sys 0 u rest Hseed H0)|].
        left. cbn [pollers]. apply Hch.
Qed.

Lemma reachable_first_handed_back : reachable first_handed_back.
Proof.
  apply (reachable_step solo_reported).
  - apply (reachable_step solo_polled).
    + apply (reachable_step first_polling).
      * apply (reachable_step ShareMemory); [apply reachable_start|].
        exact (step_seed ShareMemory 0 "http://www.google.com/"
                 ["http://golang.org/"; "http://blog.golang.org/"]%string
                 eq_refl eq_refl).
      * exact (step_poll first_polling 0 (newResource "http://www.google.com/")
                 (HeadOk {| Status := "200 OK" |}) eq_refl).
    + exact (step_status solo_polled 0 (newResource "http://www.google.com/")
               "200 OK" _ [] eq_refl
               (StateMonitor_update newStatus
                  {| s_url := "http://www.google.com/"; s_status := "200 OK" |})).
  - exact (step_complete solo_reported 0 (newResource "http://www.google.com/")
             eq_refl eq_refl).
Qed.

Lemma no_channel_deadlock_witness :
  exists sys',
    step first_handed_back sys'
    /\ (pollers sys' ≠ pollers first_handed_back
        \/ received sys' ≠ received first_handed_back).
Proof.
  apply no_channel_deadlock.
  - apply reachable_first_handed_back.
  - intros [|[|i]] r; discriminate.
Defined.

(** ** The order of the first round *)

(** X13: the URLs enter the pipeline in the order of [urls]: in every state
    of every execution the URLs that the seeding goroutine has still to send
    are a suffix of [urls], and no step ever adds to them. *)
Theorem seed_is_suffix (sys : System) :
  reachable sys ->
  (exists sent, urls = sent ++ seed sys)
  /\ (forall sys', step sys sys' ->
        seed sys' = seed sys \/ exists u, seed sys = u :: seed sys').
Proof.
  intros Hreach. split.
  - induction Hreach as [|sys sys' Hreach [sent IH] Hstep].
    + exists []. reflexivity.
    + destruct Hstep as [sys i u rest Hseed Hi| | | | | |]; cbn [seed];
        try (exists sent; exact IH).
      exists (sent ++ [u]). rewrite IH, Hseed, <- app_assoc. reflexivity.
  - intros sys' Hstep.
    destruct Hstep as [sys i u rest Hseed Hi| | | | | |]; cbn [seed];
      try (left; reflexivity).
    right. exists u. exact Hseed.
Qed.

Lemma seed_is_suffix_witness :
  (exists sent, urls = sent ++ seed both_polling)
  /\ (forall sys', step both_polling sys' ->
        seed sys' = seed both_polling
        \/ exists u, seed both_polling = u :: seed sys').
Proof. apply seed_is_suffix. apply reachable_both_polling. Defined.
